(** * vcpkg filesystem abstraction: [toolsrc/include/vcpkg/base/files.h]

    A shallow embedding of the header's data model (namespace [fs]) and of
    the path utilities of [vcpkg::Files], together with the properties the
    specification states about them.

    The header is compiled in two configurations, selected by the
    preprocessor symbol [_WIN32].  The configuration is an explicit boolean
    of the embedding: a definition whose body contains an
    [#if defined(_WIN32)] takes it as its first argument. *)

From Stdlib Require Import ZArith Ascii String List Bool Lia.
From stdpp Require Import base option gmap strings list fin_maps.

Local Open Scope Z_scope.

(** ** [fs::file_type] *)

(** The enumeration of lines 55-69.  Without [_WIN32] the header imports
    [stdfs::file_type], which has the same enumerators apart from
    [directory_symlink]; that enumerator exists under [_WIN32] only. *)
Inductive file_type : Type :=
  | none
  | not_found
  | regular
  | directory
  | symlink
  | block
  | character
  | fifo
  | socket
  | unknown
  | directory_symlink. (* also stands for a junction *)

(** The enumerators a configuration declares. *)
Definition declared (_WIN32 : bool) (t : file_type) : bool :=
  match t with
  | directory_symlink => _WIN32
  | _ => true
  end.

(** The integer each enumerator stands for (lines 57-68). *)
Definition underlying (t : file_type) : Z :=
  match t with
  | none => 0
  | not_found => -1
  | regular => 1
  | directory => 2
  | symlink => 3
  | block => 4
  | character => 5
  | fifo => 6
  | socket => 7
  | unknown => 8
  | directory_symlink => 42
  end.

(** [a == b] on a scoped enumeration compares the underlying integers. *)
Definition file_type_eq (a b : file_type) : bool :=
  underlying a =? underlying b.

Definition file_type_ne (a b : file_type) : bool :=
  negb (file_type_eq a b).

Definition all_file_types : list file_type :=
  [none; not_found; regular; directory; symlink; block; character; fifo;
   socket; unknown; directory_symlink].

(** ** [fs::perms] *)

(** [stdfs::perms] is a bitmask type over a 16-bit mask; the header only
    names [perms::unknown], which the C++ library defines as [0xFFFF]. *)
Definition perms : Type := Z.

Definition perms_unknown : perms := 0xFFFF.

(** ** [fs::file_status] (lines 71-87) *)

Record file_status : Type := mk_file_status {
  m_type : file_type;
  m_permissions : perms
}.

Module FileStatus.

(** [explicit file_status(file_type type = file_type::none,
                          perms permissions = perms::unknown) noexcept].
    An omitted argument is [None] and takes the declared default. *)
Definition make (type : option file_type) (permissions : option perms)
  : file_status :=
  {| m_type := default none type;
     m_permissions := default perms_unknown permissions |}.

(** [file_type type() const noexcept] *)
Definition type (s : file_status) : file_type := m_type s.

(** [void type(file_type type) noexcept] *)
Definition set_type (t : file_type) (s : file_status) : file_status :=
  {| m_type := t; m_permissions := m_permissions s |}.

(** [perms permissions() const noexcept] *)
Definition permissions (s : file_status) : perms := m_permissions s.

(** [void permissions(perms perm) noexcept] *)
Definition set_permissions (p : perms) (s : file_status) : file_status :=
  {| m_type := m_type s; m_permissions := p |}.

End FileStatus.

(** ** The predicates on a [file_status] (lines 119-128) *)

Section Predicates.

Variable _WIN32 : bool.

Definition is_symlink (s : file_status) : bool :=
  if _WIN32 && file_type_eq (FileStatus.type s) directory_symlink
  then true
  else file_type_eq (FileStatus.type s) symlink.

End Predicates.

Definition is_regular_file (s : file_status) : bool :=
  file_type_eq (FileStatus.type s) regular.

Definition is_directory (s : file_status) : bool :=
  file_type_eq (FileStatus.type s) directory.

Definition exists_ (s : file_status) : bool :=
  file_type_ne (FileStatus.type s) not_found
  && file_type_ne (FileStatus.type s) none.

(** ** [fs::SystemHandle] (lines 89-95 and 109-115) *)

(** The two configurations differ only in the integral type of
    [system_handle] ([intptr_t] for a [HANDLE], [int] for a file
    descriptor); both initialise it to [-1] and compare it with [-1]. *)
Record SystemHandle : Type := mk_SystemHandle {
  system_handle : Z
}.

Module Handle.

(** The default member initialiser [type system_handle = -1]. *)
Definition make : SystemHandle := {| system_handle := -1 |}.

(** [bool is_valid() const { return system_handle != -1; }] *)
Definition is_valid (h : SystemHandle) : bool :=
  negb (system_handle h =? -1).

End Handle.

(** ** Recoverable errors *)

(** [std::error_code], reduced to the conditions the specification names. *)
Inductive error_code : Type :=
  | Success
  | NotFound
  | IOError
  | LockNotAcquired.

(** [vcpkg::Expected<T>]: a value or the error that prevented it. *)
Inductive Expected (T : Type) : Type :=
  | Value (v : T)
  | Error (ec : error_code).

Arguments Value {T} v.
Arguments Error {T} ec.

(** ** The native filesystem provider *)

(** Entry kinds that are neither files, directories nor links. *)
Inductive special : Type := Block | Character | Fifo | Socket | Unknown.

Definition special_type (k : special) : file_type :=
  match k with
  | Block => block
  | Character => character
  | Fifo => fifo
  | Socket => socket
  | Unknown => unknown
  end.

(** Modelled from the spec: the native provider behind the virtual
    operations is not part of the sources.  Its state is a finite map from
    paths to what they name, with the entry kinds of the file-status
    model.  Paths are UTF-8 strings; a link stores the path it redirects
    to. *)
Inductive node : Type :=
  | RegularFile (p : perms) (contents : string)
  | Directory (p : perms)
  | Symlink (p : perms) (target : string)
  | Junction (p : perms) (target : string)
  | Special (p : perms) (k : special).

Definition node_status (n : node) : file_status :=
  match n with
  | RegularFile p _ => FileStatus.make (Some regular) (Some p)
  | Directory p => FileStatus.make (Some directory) (Some p)
  | Symlink p _ => FileStatus.make (Some symlink) (Some p)
  | Junction p _ => FileStatus.make (Some directory_symlink) (Some p)
  | Special p k => FileStatus.make (Some (special_type k)) (Some p)
  end.

(** The path a link redirects to. *)
Definition link_target (n : node) : option string :=
  match n with
  | Symlink _ target | Junction _ target => Some target
  | _ => None
  end.

(** Follow links from [path] for at most [fuel] hops.  The result is the
    entry the chain ends in, [None] when the chain ends at a name that
    does not exist, or an error when the hops run out. *)
Fixpoint follow (fuel : nat) (tree : gmap string node) (path : string)
  : Expected (option node) :=
  match tree !! path with
  | None => Value None
  | Some n =>
      match link_target n with
      | None => Value (Some n)
      | Some target =>
          match fuel with
          | O => Error IOError
          | S fuel' => follow fuel' tree target
          end
      end
  end.

(** The chain from [path] comes to [link]: after some hops, following
    from [path] is following from [link]. *)
Definition reaches (tree : gmap string node) (path link : string) : Prop :=
  ∃ hops : nat,
    ∀ fuel, follow (hops + fuel) tree path = follow fuel tree link.

(** A chain of links that ends visits no entry twice, so as many hops as
    there are entries follow every such chain to its end
    ([resolve_complete]); the chains that run out of hops are the
    cycles. *)
Definition resolve (tree : gmap string node) (path : string)
  : Expected (option node) :=
  follow (size tree) tree path.

(** A tree of the configuration: junctions exist under [_WIN32] only. *)
Definition is_junction (n : node) : bool :=
  match n with
  | Junction _ _ => true
  | _ => false
  end.

Definition native_tree (_WIN32 : bool) (tree : gmap string node) : Prop :=
  map_Forall (λ _ n, implb (is_junction n) _WIN32 = true) tree.

Definition status_of (r : Expected (option node)) : file_status * error_code :=
  match r with
  | Value None => (FileStatus.make (Some not_found) None, Success)
  | Value (Some n) => (node_status n, Success)
  | Error ec => (FileStatus.make None None, ec)
  end.

(** Modelled from the spec: [Filesystem::symlink_status(path, ec)] is pure
    virtual in the header and its implementation is not part of the
    sources.  It reports the entry the path names without following a
    link; a path that names nothing yields [not_found].  The pair is the
    returned status and the [ec] out-parameter. *)
Definition symlink_status (tree : gmap string node) (path : string)
  : file_status * error_code :=
  status_of (Value (tree !! path)).

(** Modelled from the spec: [Filesystem::status(path, ec)] is pure virtual
    in the header and its implementation is not part of the sources.  It
    follows links and reports the type of the final target; a path that
    names nothing, or a link whose target names nothing, yields
    [not_found]. *)
Definition status (tree : gmap string node) (path : string)
  : file_status * error_code :=
  status_of (resolve tree path).

(** Modelled from the spec: [Filesystem::read_contents(file_path)] is pure
    virtual in the header and its implementation is not part of the
    sources.  It reads the whole file, and fails with [NotFound] when the
    path is absent and with [IOError] when it is unreadable. *)
Definition read_contents (tree : gmap string node) (file_path : string)
  : Expected string :=
  match resolve tree file_path with
  | Value (Some (RegularFile _ contents)) => Value contents
  | Value (Some _) => Error IOError
  | Value None => Error NotFound
  | Error ec => Error ec
  end.

(** A small tree: a directory, a link to it and a link to nothing. *)
Definition sample_tree : gmap string node :=
  {[ "ports"%string := Directory 0x1ed;
     "current"%string := Symlink 0x1ff "ports";
     "dangling"%string := Symlink 0x1ff "gone" ]}.

(** ** Text lines *)

Definition LF : ascii := "010"%char.
Definition CR : ascii := "013"%char.

(** The text split at line feeds.  A line feed ends a line; text after the
    last line feed is a line of its own unless it is empty. *)
Fixpoint split_lines (text : string) : list string :=
  match text with
  | EmptyString => []
  | String c rest =>
      if Ascii.eqb c LF then EmptyString :: split_lines rest
      else match split_lines rest with
           | [] => [String c EmptyString]
           | line :: lines => String c line :: lines
           end
  end.

(** [std::string::back], on a possibly empty string. *)
Fixpoint back (s : string) : option ascii :=
  match s with
  | EmptyString => None
  | String c EmptyString => Some c
  | String _ rest => back rest
  end.

(** [std::string::pop_back]. *)
Fixpoint pop_back (s : string) : string :=
  match s with
  | EmptyString => EmptyString
  | String _ EmptyString => EmptyString
  | String c rest => String c (pop_back rest)
  end.

(** Up to one trailing carriage return is stripped. *)
Definition strip_cr (line : string) : string :=
  match back line with
  | Some c => if Ascii.eqb c CR then pop_back line else line
  | None => line
  end.

Definition lines_of (text : string) : list string :=
  map strip_cr (split_lines text).

(** The text a list of lines stands for: each line ended by a line feed. *)
Fixpoint unlines (lines : list string) : string :=
  match lines with
  | [] => EmptyString
  | line :: lines' => (line ++ String LF (unlines lines'))%string
  end.

(** [line] is [raw] with its trailing carriage return, if it has one,
    removed, and nothing else changed. *)
Definition stripped (raw line : string) : Prop :=
  (back raw = Some CR ∧ raw = (line ++ String CR EmptyString)%string)
  ∨ (back raw ≠ Some CR ∧ line = raw).

(** Modelled from the spec: [Filesystem::read_lines(file_path)] is pure
    virtual in the header and its implementation is not part of the
    sources.  It reads the lines of the file, each with at most one
    trailing carriage return stripped, and fails as [read_contents]
    does. *)
Definition read_lines (tree : gmap string node) (file_path : string)
  : Expected (list string) :=
  match read_contents tree file_path with
  | Value text => Value (lines_of text)
  | Error ec => Error ec
  end.

(** The file of the specification's example: [a CR LF b LF]. *)
Definition crlf_text : string :=
  String "a" (String CR (String LF (String "b" (String LF EmptyString)))).

Definition crlf_tree : gmap string node :=
  {[ "status"%string := RegularFile 0x1a4 crlf_text ]}.

(** ** File locks *)

(** Modelled from the spec: the provider's locks are not part of the
    sources.  The table holds the native value of each handle that holds
    a lock, with the path it locks, and the next native value the
    provider hands out. *)
Record lock_table : Type := mk_lock_table {
  holders : gmap Z string;
  next_native : nat
}.

Definition no_locks : lock_table :=
  {| holders := ∅; next_native := 0 |}.

Definition locked (t : lock_table) (path : string) : bool :=
  bool_decide (path ∈ (map_img (holders t) : gset string)).

(** The resource behind [h] was acquired and has not been released. *)
Definition held (t : lock_table) (h : SystemHandle) : Prop :=
  is_Some (holders t !! system_handle h).

(** Modelled from the spec: [Filesystem::try_take_exclusive_file_lock] is
    pure virtual in the header and its implementation is not part of the
    sources.  The outcome once the time budget is over: the lock if the
    file was free, otherwise an invalid handle and a recoverable error. *)
Definition try_take_exclusive_file_lock (path : string) (t : lock_table)
  : SystemHandle * error_code * lock_table :=
  if locked t path then (Handle.make, LockNotAcquired, t)
  else
    let native := Z.of_nat (next_native t) in
    ({| system_handle := native |}, Success,
     {| holders := <[native := path]> (holders t);
        next_native := S (next_native t) |}).

(** Modelled from the spec: [Filesystem::unlock_file_lock] is pure virtual
    in the header and its implementation is not part of the sources.
    Releasing an invalid handle is a no-op and not an error.  The header
    fixes the signature: the handle is passed by value, so the only
    results are the [ec] out-parameter and the provider's new state; the
    caller's handle is not written. *)
Definition unlock_file_lock (handle : SystemHandle) (t : lock_table)
  : error_code * lock_table :=
  if Handle.is_valid handle then
    match holders t !! system_handle handle with
    | Some _ =>
        (Success,
         {| holders := delete (system_handle handle) (holders t);
            next_native := next_native t |})
    | None => (IOError, t)
    end
  else (Success, t).

(** The tables the provider can be in: no lock at first, then any
    sequence of acquisitions and releases. *)
Inductive reachable : lock_table → Prop :=
  | reachable_init : reachable no_locks
  | reachable_take (path : string) (t t' : lock_table)
      (h : SystemHandle) (ec : error_code) :
      reachable t →
      try_take_exclusive_file_lock path t = (h, ec, t') →
      reachable t'
  | reachable_unlock (h : SystemHandle) (t t' : lock_table) (ec : error_code) :
      reachable t →
      unlock_file_lock h t = (ec, t') →
      reachable t'.

(** The native values in use are the ones handed out so far. *)
Definition natives_bounded (t : lock_table) : Prop :=
  ∀ native, is_Some (holders t !! native) →
            0 ≤ native < Z.of_nat (next_native t).

(** One lock taken and released again: the handle the caller got, and
    the table after the release. *)
Definition lock_path : string := "vcpkg-running.lock".

Definition taken : SystemHandle * error_code * lock_table :=
  try_take_exclusive_file_lock lock_path no_locks.

Definition taken_handle : SystemHandle := taken.1.1.

Definition released : error_code * lock_table :=
  unlock_file_lock taken_handle taken.2.

(** ** Path utilities (lines 231-233) *)

Definition double_quote : ascii := "034"%char.

(** [FILESYSTEM_INVALID_CHARACTERS], the raw string literal of line 231:
    backslash, slash, colon, asterisk, question mark, double quote, less
    than, greater than, vertical bar. *)
Definition FILESYSTEM_INVALID_CHARACTERS : string :=
  ("\/:*?" ++ String double_quote "<>|")%string.

(** [std::string::find_first_of]: the first position of [s] that holds one
    of [chars]; [None] stands for [npos]. *)
Fixpoint contains_char (chars : string) (c : ascii) : bool :=
  match chars with
  | EmptyString => false
  | String d chars' => Ascii.eqb c d || contains_char chars' c
  end.

Fixpoint find_first_of (s chars : string) : option nat :=
  match s with
  | EmptyString => None
  | String c rest =>
      if contains_char chars c then Some O
      else option_map S (find_first_of rest chars)
  end.

(** Modelled from the spec: [has_invalid_chars_for_filesystem] is declared
    at line 233 and defined outside the sources.  It detects the reserved
    characters in a name. *)
Definition has_invalid_chars_for_filesystem (s : string) : bool :=
  match find_first_of s FILESYSTEM_INVALID_CHARACTERS with
  | Some _ => true
  | None => false
  end.

(** The nine reserved characters the specification lists, by code:
    backslash, slash, colon, asterisk, question mark, double quote, less
    than, greater than, vertical bar. *)
Definition reserved_characters : list ascii :=
  map ascii_of_nat [92; 47; 58; 42; 63; 34; 60; 62; 124]%nat.

(** ** The platform separator (lines 241-245) *)

(** [constexpr char preferred_separator], a backslash under [_WIN32] and a
    slash otherwise. *)
Definition preferred_separator (_WIN32 : bool) : ascii :=
  if _WIN32 then "\"%char else "/"%char.

(** ** [fs::u8path] (lines 32-49) *)

Definition NUL : ascii := "000"%char.

(** [vcpkg::StringView{first, last}]: the bytes of the half-open range
    from [first] to [last] of a buffer.  Pointers are offsets into the
    buffer; [last] may be one past its end.  A range that is reversed or
    leaves the buffer is not a view of anything. *)
Definition string_view (mem : list ascii) (first last : Z)
  : option (list ascii) :=
  if (0 <=? first) && (first <=? last) && (last <=? Z.of_nat (length mem))
  then Some (take (Z.to_nat (last - first)) (drop (Z.to_nat first) mem))
  else None.

(** [::strlen]: the number of bytes before the first NUL.  A buffer
    without a NUL has no length: the scan leaves it. *)
Fixpoint strlen (mem : list ascii) : option Z :=
  match mem with
  | [] => None
  | c :: rest => if Ascii.eqb c NUL then Some 0 else Z.succ <$> strlen rest
  end.

(** [&*it] for an iterator of a [std::string]: iterators are positions,
    and only the positions of characters can be dereferenced; [end()]
    cannot. *)
Definition deref (str : list ascii) (it : Z) : option Z :=
  if (0 <=? it) && (it <? Z.of_nat (length str)) then Some it else None.

Section U8Path.

(** [fs::path], and the two ways the header makes one that it does not
    define itself: [path u8path(vcpkg::StringView s)], declared at line
    32, which gets the viewed bytes, and the empty [path{}]. *)
Variable path : Type.
Variable u8path : list ascii → path.
Variable empty_path : path.

(** [u8path(const char* first, const char* last)] (line 33) *)
Definition u8path_range (mem : list ascii) (first last : Z) : option path :=
  u8path <$> string_view mem first last.

(** [u8path(const char* s)] (line 34) *)
Definition u8path_cstr (mem : list ascii) (s : Z) : option path :=
  if 0 <=? s then
    n ← strlen (drop (Z.to_nat s) mem);
    u8path <$> string_view mem s (s + n)
  else None.

(** [u8path(std::string::const_iterator first, last)] (lines 37-48).  The
    buffer of a [std::string] is its characters followed by a NUL. *)
Definition u8path_iter (str : list ascii) (first last : Z) : option path :=
  if first =? last then Some empty_path
  else
    firstp ← deref str first;
    u8path <$> string_view (str ++ [NUL]) firstp (firstp + (last - first)).

End U8Path.

Arguments u8path_range {path} u8path mem first last.
Arguments u8path_cstr {path} u8path mem s.
Arguments u8path_iter {path} u8path empty_path str first last.

(** * Properties *)

(** ** The enumeration *)

Lemma underlying_inj (a b : file_type) : underlying a = underlying b → a = b.
Proof. destruct a, b; simpl; intros H; try reflexivity; discriminate H. Qed.

Lemma file_type_eq_spec (a b : file_type) : file_type_eq a b = true ↔ a = b.
Proof.
  unfold file_type_eq. rewrite Z.eqb_eq. split.
  - apply underlying_inj.
  - intros ->. reflexivity.
Qed.

Lemma file_type_eq_false (a b : file_type) : file_type_eq a b = false ↔ a ≠ b.
Proof.
  rewrite <- file_type_eq_spec. destruct (file_type_eq a b); split; congruence.
Qed.

Lemma file_type_ne_spec (a b : file_type) : file_type_ne a b = true ↔ a ≠ b.
Proof.
  unfold file_type_ne. rewrite negb_true_iff. apply file_type_eq_false.
Qed.

Lemma all_file_types_complete (t : file_type) : In t all_file_types.
Proof. destruct t; simpl; tauto. Qed.

Lemma all_file_types_NoDup : List.NoDup (map underlying all_file_types).
Proof.
  unfold all_file_types; simpl.
  repeat (constructor; [simpl; intros H; repeat destruct H as [H | H]; try discriminate H; exact H |]).
  constructor.
Qed.

(** ** The predicates *)

Lemma is_regular_file_iff (s : file_status) :
  is_regular_file s = true ↔ FileStatus.type s = regular.
Proof. apply file_type_eq_spec. Qed.

Lemma is_directory_iff (s : file_status) :
  is_directory s = true ↔ FileStatus.type s = directory.
Proof. apply file_type_eq_spec. Qed.

Lemma is_symlink_iff (_WIN32 : bool) (s : file_status) :
  is_symlink _WIN32 s = true
  ↔ FileStatus.type s = symlink
    ∨ (_WIN32 = true ∧ FileStatus.type s = directory_symlink).
Proof.
  destruct s as [t p]; destruct t, _WIN32; cbn;
    (split; [intros H; first [discriminate H | auto]
            | intros [H | [H1 H2]]; first [reflexivity | discriminate]]).
Qed.

(** The predicates read the status through [type()] only. *)
Lemma predicates_factor (_WIN32 : bool) (s : file_status) :
  is_symlink _WIN32 s
    = is_symlink _WIN32 (FileStatus.make (Some (FileStatus.type s)) None)
  ∧ is_regular_file s
    = is_regular_file (FileStatus.make (Some (FileStatus.type s)) None)
  ∧ is_directory s
    = is_directory (FileStatus.make (Some (FileStatus.type s)) None)
  ∧ exists_ s = exists_ (FileStatus.make (Some (FileStatus.type s)) None).
Proof. repeat split. Qed.

(** C1.  [fs::is_symlink(s)] is true exactly when [s.type()] is the genuine
    [symlink] type or, in the Windows configuration, the distinct
    [directory_symlink] (junction) type; for every other type, and for
    [directory_symlink] outside the Windows configuration, it is false. *)
Theorem is_symlink_classifies (_WIN32 : bool) (s : file_status) :
  is_symlink _WIN32 s
  = match FileStatus.type s with
    | symlink => true
    | directory_symlink => _WIN32
    | _ => false
    end.
Proof.
  destruct s as [t p]. destruct t, _WIN32; reflexivity.
Qed.

(** C2.  [fs::exists(s)] is true if and only if [s.type()] is neither
    [file_type::not_found] nor [file_type::none]. *)
Theorem exists_iff_found (s : file_status) :
  exists_ s = true
  ↔ FileStatus.type s ≠ not_found ∧ FileStatus.type s ≠ none.
Proof.
  unfold exists_. rewrite andb_true_iff, !file_type_ne_spec. reflexivity.
Qed.

(** C9.  [fs::is_directory(s)] holds only for the type [directory] and
    [fs::is_regular_file(s)] only for the type [regular]; a status of type
    [directory_symlink] satisfies [is_symlink] in the Windows
    configuration, and neither [is_directory] nor [is_regular_file]. *)
Theorem is_directory_is_regular_file_exact (s : file_status) (p : perms) :
  (is_directory s = true ↔ FileStatus.type s = directory)
  ∧ (is_regular_file s = true ↔ FileStatus.type s = regular)
  ∧ is_symlink true (mk_file_status directory_symlink p) = true
  ∧ is_directory (mk_file_status directory_symlink p) = false
  ∧ is_regular_file (mk_file_status directory_symlink p) = false.
Proof.
  split; [apply is_directory_iff |].
  split; [apply is_regular_file_iff |].
  repeat split.
Qed.

(** C10.  Two statuses with equal [type()] and arbitrary, possibly
    different, [permissions()] get the same answer from each of
    [is_symlink], [is_regular_file], [is_directory] and [exists]. *)
Theorem predicates_ignore_permissions
    (_WIN32 : bool) (s1 s2 : file_status)
    (Htype : FileStatus.type s1 = FileStatus.type s2) :
  is_symlink _WIN32 s1 = is_symlink _WIN32 s2
  ∧ is_regular_file s1 = is_regular_file s2
  ∧ is_directory s1 = is_directory s2
  ∧ exists_ s1 = exists_ s2.
Proof.
  destruct (predicates_factor _WIN32 s1) as (Hs & Hr & Hd & He).
  rewrite Hs, Hr, Hd, He, Htype.
  symmetry in Htype.
  destruct (predicates_factor _WIN32 s2) as (Hs' & Hr' & Hd' & He').
  rewrite <- Hs', <- Hr', <- Hd', <- He'. repeat split.
Qed.

Lemma predicates_ignore_permissions_witness :
  FileStatus.type (mk_file_status directory_symlink 0x1a4)
  = FileStatus.type (mk_file_status directory_symlink perms_unknown)
  ∧ is_symlink true (mk_file_status directory_symlink 0x1a4)
    = is_symlink true (mk_file_status directory_symlink perms_unknown)
  ∧ is_regular_file (mk_file_status directory_symlink 0x1a4)
    = is_regular_file (mk_file_status directory_symlink perms_unknown)
  ∧ is_directory (mk_file_status directory_symlink 0x1a4)
    = is_directory (mk_file_status directory_symlink perms_unknown)
  ∧ exists_ (mk_file_status directory_symlink 0x1a4)
    = exists_ (mk_file_status directory_symlink perms_unknown).
Proof.
  split; [reflexivity |].
  apply (predicates_ignore_permissions true
           (mk_file_status directory_symlink 0x1a4)
           (mk_file_status directory_symlink perms_unknown)).
  reflexivity.
Defined.

(** ** Status queries *)

Lemma make_default :
  FileStatus.make None None = mk_file_status none perms_unknown.
Proof. reflexivity. Qed.

Lemma type_set_type (t : file_type) (s : file_status) :
  FileStatus.type (FileStatus.set_type t s) = t
  ∧ FileStatus.permissions (FileStatus.set_type t s) = FileStatus.permissions s.
Proof. split; reflexivity. Qed.

Lemma type_set_permissions (p : perms) (s : file_status) :
  FileStatus.type (FileStatus.set_permissions p s) = FileStatus.type s
  ∧ FileStatus.permissions (FileStatus.set_permissions p s) = p.
Proof. split; reflexivity. Qed.

Lemma node_status_type (n : node) :
  FileStatus.type (node_status n) ≠ none
  ∧ FileStatus.type (node_status n) ≠ not_found.
Proof. destruct n as [| | | |p k]; try destruct k; split; discriminate. Qed.

Lemma follow_error (fuel : nat) (tree : gmap string node) (path : string)
    (ec : error_code) :
  follow fuel tree path = Error ec → ec = IOError.
Proof.
  revert path. induction fuel as [|fuel IH]; intros path; simpl;
    destruct (tree !! path) as [n|]; try discriminate;
    destruct (link_target n); try discriminate;
    solve [intros [= <-]; reflexivity | apply IH].
Qed.

(** A chain that ends at an entry ends at one that is not a link. *)
Lemma follow_final (fuel : nat) (tree : gmap string node) (path : string)
    (n : node) :
  follow fuel tree path = Value (Some n) →
  FileStatus.type (node_status n) ≠ symlink
  ∧ FileStatus.type (node_status n) ≠ directory_symlink.
Proof.
  assert (Hend : ∀ m, link_target m = None →
                      FileStatus.type (node_status m) ≠ symlink
                      ∧ FileStatus.type (node_status m) ≠ directory_symlink).
  { intros [| | | |p k]; try discriminate; try destruct k;
      split; discriminate. }
  revert path. induction fuel as [|fuel IH]; intros path; simpl;
    destruct (tree !! path) as [m|]; try discriminate;
    destruct (link_target m) eqn:Hm; try discriminate;
    try (intros [= <-]; apply Hend; exact Hm).
  apply IH.
Qed.

Lemma status_of_success (r : Expected (option node)) (s : file_status) :
  (∀ ec, r = Error ec → ec ≠ Success) →
  status_of r = (s, Success) →
  FileStatus.type s ≠ none.
Proof.
  intros Herr. destruct r as [[n|]|ec]; simpl.
  - intros [= <-]. apply node_status_type.
  - intros [= <-]. discriminate.
  - intros [= _ Hec]. exfalso. apply (Herr ec); [reflexivity | exact Hec].
Qed.

Lemma status_success (tree : gmap string node) (path : string)
    (s : file_status) :
  status tree path = (s, Success) → FileStatus.type s ≠ none.
Proof.
  apply status_of_success. intros ec Hec.
  apply follow_error in Hec. subst ec. discriminate.
Qed.

Lemma symlink_status_success (tree : gmap string node) (path : string)
    (s : file_status) :
  symlink_status tree path = (s, Success) → FileStatus.type s ≠ none.
Proof. apply status_of_success. discriminate. Qed.

Lemma status_absent (tree : gmap string node) (path : string) :
  tree !! path = None →
  status tree path = (mk_file_status not_found perms_unknown, Success).
Proof.
  intros H. unfold status, resolve.
  destruct (size tree); simpl; rewrite H; reflexivity.
Qed.

Lemma symlink_status_absent (tree : gmap string node) (path : string) :
  tree !! path = None →
  symlink_status tree path = (mk_file_status not_found perms_unknown, Success).
Proof. intros H. unfold symlink_status. rewrite H. reflexivity. Qed.

(** [status] reports what a link leads to, [symlink_status] the link. *)
Lemma status_follows_links (tree : gmap string node) (path : string)
    (s : file_status) :
  status tree path = (s, Success) →
  is_symlink true s = false.
Proof.
  unfold status, resolve. destruct (follow _ _ _) as [[n|]|ec] eqn:Hf; simpl.
  - intros [= <-]. apply follow_final in Hf as [H1 H2].
    rewrite is_symlink_classifies.
    destruct (FileStatus.type (node_status n)); congruence.
  - intros [= <-]. reflexivity.
  - intros [= _ ->]. apply follow_error in Hf. discriminate.
Qed.

(** *** The hop budget of [resolve] *)

Lemma follow_link (fuel : nat) (tree : gmap string node) (path target : string)
    (n : node) :
  tree !! path = Some n → link_target n = Some target →
  follow (S fuel) tree path = follow fuel tree target
  ∧ follow 0 tree path = Error IOError.
Proof. intros Hp Hn. simpl. rewrite Hp, Hn. split; reflexivity. Qed.

Lemma follow_end (fuel : nat) (tree : gmap string node) (path : string) :
  (∀ n, tree !! path = Some n → link_target n = None) →
  follow fuel tree path = Value (tree !! path).
Proof.
  intros Hend. destruct fuel; simpl;
    (destruct (tree !! path) as [n|]; [rewrite (Hend n eq_refl) |]);
    reflexivity.
Qed.

(** More hops do not change the end of a chain. *)
Lemma follow_mono (fuel fuel' : nat) (tree : gmap string node)
    (path : string) (v : option node) :
  follow fuel tree path = Value v → (fuel ≤ fuel')%nat →
  follow fuel' tree path = Value v.
Proof.
  revert fuel' path. induction fuel as [|fuel IH]; intros fuel' path;
    destruct fuel' as [|fuel']; simpl;
    destruct (tree !! path) as [n|]; try destruct (link_target n);
    try discriminate; try (intros; assumption); try (intros; lia).
  intros H Hle. apply IH; [exact H | lia].
Qed.

(** Removing an entry changes a chain only if the chain comes to it. *)
Lemma follow_delete (link : string) (tree : gmap string node) (fuel : nat)
    (path : string) :
  follow fuel (delete link tree) path = follow fuel tree path
  ∨ reaches tree path link.
Proof.
  revert path. induction fuel as [|fuel IH]; intros path;
    (destruct (decide (path = link)) as [-> | Hne];
     [right; exists O; reflexivity |]);
    simpl; rewrite lookup_delete_ne by congruence;
    destruct (tree !! path) as [n|] eqn:Hp; try (left; reflexivity);
    destruct (link_target n) as [target|] eqn:Hn; try (left; reflexivity).
  destruct (IH target) as [Heq | [hops Hhops]]; [left; exact Heq |].
  right. exists (S hops). intros fuel'.
  rewrite <- (Hhops fuel'). apply (follow_link _ _ _ _ _ Hp Hn).
Qed.

(** A chain that comes back to a link it left through never ends. *)
Lemma cycle_never_ends (tree : gmap string node) (link target : string)
    (n : node) :
  tree !! link = Some n → link_target n = Some target →
  reaches tree target link →
  ∀ fuel v, follow fuel tree link ≠ Value v.
Proof.
  intros Hl Hn [hops Hhops] fuel.
  induction fuel as [fuel IH] using lt_wf_ind. intros v Hv.
  destruct (le_lt_dec (S hops) fuel) as [Hge | Hlt].
  - replace fuel with (S (hops + (fuel - S hops)))%nat in Hv by lia.
    destruct (follow_link (hops + (fuel - S hops)) _ _ _ _ Hl Hn) as [Hstep _].
    rewrite Hstep, Hhops in Hv. apply (IH (fuel - S hops)%nat) in Hv; [exact Hv | lia].
  - apply (follow_mono fuel (S (hops + 0))) in Hv; [| lia].
    destruct (follow_link (hops + 0) _ _ _ _ Hl Hn) as [Hstep Hzero].
    rewrite Hstep, Hhops, Hzero in Hv. discriminate Hv.
Qed.

Lemma size_delete_entry (tree : gmap string node) (path : string) (n : node) :
  tree !! path = Some n → size tree = S (size (delete path tree)).
Proof.
  intros Hp. rewrite <- (insert_id tree path n Hp) at 1.
  rewrite <- insert_delete_eq. apply map_size_insert_None, lookup_delete_eq.
Qed.

(** As many hops as the tree has entries are enough: a chain that ends
    for some number of hops is followed to the same end by [resolve]. *)
Theorem resolve_complete (fuel : nat) (tree : gmap string node)
    (path : string) (v : option node) :
  follow fuel tree path = Value v → resolve tree path = Value v.
Proof.
  unfold resolve. revert tree path.
  induction fuel as [|fuel IH]; intros tree path Hv;
    destruct (tree !! path) as [n|] eqn:Hp;
    try destruct (link_target n) as [target|] eqn:Hn;
    try (rewrite follow_end in Hv |- *;
         [exact Hv | intros m Hm; congruence | intros m Hm; congruence]).
  - destruct (follow_link 0 _ _ _ _ Hp Hn) as [_ Hzero].
    rewrite Hzero in Hv. discriminate Hv.
  - pose proof Hv as Hstep.
    destruct (follow_link fuel _ _ _ _ Hp Hn) as [Heq _].
    rewrite Heq in Hstep. clear Heq.
    rewrite (size_delete_entry _ _ _ Hp).
    destruct (follow_link (size (delete path tree)) _ _ _ _ Hp Hn) as [-> _].
    destruct (follow_delete path tree fuel target) as [Heq | Hreach];
      [| exfalso; exact (cycle_never_ends _ _ _ _ Hp Hn Hreach _ _ Hv)].
    rewrite <- Heq in Hstep. apply IH in Hstep.
    destruct (follow_delete path tree (size (delete path tree)) target)
      as [Heq' | Hreach];
      [| exfalso; exact (cycle_never_ends _ _ _ _ Hp Hn Hreach _ _ Hv)].
    rewrite <- Heq'. exact Hstep.
Qed.

(** A link to itself is the smallest cycle: [status] reports the error. *)
Example status_cycle :
  status {[ "loop"%string := Symlink 0x1ff "loop" ]} "loop"
  = (mk_file_status none perms_unknown, IOError).
Proof. reflexivity. Qed.

Lemma declared_not_junction (_WIN32 : bool) (t : file_type) :
  t ≠ directory_symlink → declared _WIN32 t = true.
Proof. destruct t; try reflexivity. intros H. destruct H. reflexivity. Qed.

Lemma node_status_declared (_WIN32 : bool) (n : node) :
  implb (is_junction n) _WIN32 = true →
  declared _WIN32 (FileStatus.type (node_status n)) = true.
Proof. destruct n as [| | | |p k]; try destruct k; simpl; auto. Qed.

Lemma symlink_status_declared (_WIN32 : bool) (tree : gmap string node)
    (path : string) (s : file_status) (ec : error_code) :
  native_tree _WIN32 tree →
  symlink_status tree path = (s, ec) →
  declared _WIN32 (FileStatus.type s) = true.
Proof.
  intros Hnative. unfold symlink_status.
  destruct (tree !! path) as [n|] eqn:Hp; simpl; intros [= <- _].
  - apply node_status_declared.
    exact (map_Forall_lookup_1 _ _ _ _ Hnative Hp).
  - reflexivity.
Qed.

Lemma status_declared (_WIN32 : bool) (tree : gmap string node)
    (path : string) (s : file_status) (ec : error_code) :
  status tree path = (s, ec) →
  declared _WIN32 (FileStatus.type s) = true.
Proof.
  unfold status. destruct (resolve tree path) as [[n|]|e] eqn:Hr; simpl;
    intros [= <- _]; try reflexivity.
  apply declared_not_junction. eapply follow_final. exact Hr.
Qed.

(** C6.  A [file_status] never holds an uninitialised type: default
    construction yields type [none] and permissions [perms::unknown], the
    setters leave [type()] defined, after a successful [status] or
    [symlink_status] query the stored type is one of the enumerators the
    configuration declares and is not the initial [none], and a query on a
    path that does not exist returns [not_found] with no error. *)
Theorem file_status_type_initialised :
  (FileStatus.type (FileStatus.make None None) = none
   ∧ FileStatus.permissions (FileStatus.make None None) = perms_unknown)
  ∧ (∀ (t : file_type) (p : perms) (s : file_status),
       FileStatus.type (FileStatus.set_type t s) = t
       ∧ FileStatus.type (FileStatus.set_permissions p s) = FileStatus.type s)
  ∧ (∀ (_WIN32 : bool) (tree : gmap string node) (path : string)
       (s : file_status),
       native_tree _WIN32 tree →
       status tree path = (s, Success) ∨ symlink_status tree path = (s, Success) →
       In (FileStatus.type s) all_file_types
       ∧ declared _WIN32 (FileStatus.type s) = true
       ∧ FileStatus.type s ≠ none)
  ∧ (∀ (tree : gmap string node) (path : string),
       tree !! path = None →
       status tree path = (FileStatus.make (Some not_found) None, Success)
       ∧ symlink_status tree path
         = (FileStatus.make (Some not_found) None, Success)).
Proof.
  split; [split; reflexivity |].
  split; [intros t p s; split; reflexivity |].
  split.
  - intros _WIN32 tree path s Hnative H.
    split; [apply all_file_types_complete |].
    destruct H as [H | H]; split.
    + eapply status_declared; exact H.
    + eapply status_success; exact H.
    + eapply symlink_status_declared; [exact Hnative | exact H].
    + eapply symlink_status_success; exact H.
  - intros tree path H. split;
      [apply status_absent | apply symlink_status_absent]; exact H.
Qed.

Lemma file_status_type_initialised_witness :
  (sample_tree !! "gone"%string = None
   ∧ status sample_tree "gone"
     = (FileStatus.make (Some not_found) None, Success))
  ∧ (native_tree false sample_tree
     ∧ symlink_status sample_tree "current"
       = (mk_file_status symlink 0x1ff, Success)
     ∧ declared false (FileStatus.type (mk_file_status symlink 0x1ff)) = true
     ∧ FileStatus.type (mk_file_status symlink 0x1ff) ≠ none).
Proof.
  destruct file_status_type_initialised as (_ & _ & Hquery & Habsent).
  split.
  - split; [reflexivity |].
    apply (Habsent sample_tree "gone"%string). reflexivity.
  - assert (Hnative : native_tree false sample_tree).
    { unfold native_tree. refine (bool_decide_unpack _ _). vm_compute. exact I. }
    split; [exact Hnative |]. split; [reflexivity |].
    apply (Hquery false sample_tree "current"%string
             (mk_file_status symlink 0x1ff) Hnative).
    right. reflexivity.
Defined.

(** ** Reading lines *)

Lemma split_lines_nil (text : string) :
  split_lines text = [] → text = EmptyString.
Proof.
  destruct text as [|c rest]; [reflexivity |]. simpl.
  destruct (Ascii.eqb c LF); [discriminate |].
  destruct (split_lines rest); discriminate.
Qed.

(** Splitting loses nothing: the lines, each ended by a line feed, are the
    text again, up to the line feed the last line may lack. *)
Lemma unlines_split_lines (text : string) :
  unlines (split_lines text) = text
  ∨ unlines (split_lines text) = (text ++ String LF EmptyString)%string.
Proof.
  induction text as [|c rest IH]; [left; reflexivity |]. simpl.
  destruct (Ascii.eqb c LF) eqn:Hc.
  - apply Ascii.eqb_eq in Hc. subst c. simpl.
    destruct IH as [-> | ->]; [left | right]; reflexivity.
  - destruct (split_lines rest) as [|line lines] eqn:Hs.
    + apply split_lines_nil in Hs. subst rest. right. reflexivity.
    + change (unlines (String c line :: lines))
        with (String c (unlines (line :: lines))).
      destruct IH as [-> | ->]; [left | right]; reflexivity.
Qed.

(** No line holds a line feed. *)
Lemma split_lines_no_LF (text : string) :
  Forall (λ line, contains_char line LF = false) (split_lines text).
Proof.
  induction text as [|c rest IH]; simpl; [constructor |].
  destruct (Ascii.eqb c LF) eqn:Hc.
  - constructor; [reflexivity | exact IH].
  - destruct (split_lines rest) as [|line lines].
    + constructor; [| constructor]. cbn [contains_char].
      rewrite Ascii.eqb_sym, Hc. reflexivity.
    + inversion IH as [|? ? Hline Hlines]; subst.
      constructor; [| exact Hlines]. cbn [contains_char].
      rewrite Ascii.eqb_sym, Hc. exact Hline.
Qed.

Lemma back_pop_back (s : string) (c : ascii) :
  back s = Some c → s = (pop_back s ++ String c EmptyString)%string.
Proof.
  induction s as [|d rest IH]; [discriminate |].
  destruct rest as [|e rest'].
  - simpl. intros [= ->]. reflexivity.
  - intros H. change (back (String e rest') = Some c) in H.
    change (String d (String e rest')
            = String d (pop_back (String e rest') ++ String c EmptyString)%string).
    f_equal. apply IH. exact H.
Qed.

Lemma strip_cr_stripped (raw : string) : stripped raw (strip_cr raw).
Proof.
  unfold stripped, strip_cr. destruct (back raw) as [c|] eqn:Hb.
  - destruct (Ascii.eqb c CR) eqn:Hc.
    + apply Ascii.eqb_eq in Hc. subst c. left.
      split; [reflexivity | apply back_pop_back; exact Hb].
    + right. split; [| reflexivity].
      intros [= ->]. rewrite Ascii.eqb_refl in Hc. discriminate.
  - right. split; [discriminate | reflexivity].
Qed.

Lemma lines_of_stripped (text : string) :
  Forall2 stripped (split_lines text) (lines_of text).
Proof.
  unfold lines_of. induction (split_lines text) as [|raw raws IH]; simpl.
  - constructor.
  - constructor; [apply strip_cr_stripped | exact IH].
Qed.

(** Only one carriage return goes: a line ending in two keeps one. *)
Lemma strip_cr_once (line : string) :
  strip_cr (line ++ String CR (String CR EmptyString))
  = (line ++ String CR EmptyString)%string.
Proof.
  unfold strip_cr.
  assert (Hb : ∀ l, back (l ++ String CR (String CR EmptyString)) = Some CR).
  { induction l as [|d l IH]; [reflexivity |].
    simpl. rewrite IH. destruct l; reflexivity. }
  assert (Hp : ∀ l, pop_back (l ++ String CR (String CR EmptyString))
                    = (l ++ String CR EmptyString)%string).
  { induction l as [|d l IH]; [reflexivity |].
    simpl. rewrite IH. destruct l; reflexivity. }
  rewrite Hb, Hp. reflexivity.
Qed.

Lemma read_lines_of_contents (tree : gmap string node) (path text : string) :
  read_contents tree path = Value text →
  read_lines tree path = Value (lines_of text).
Proof. unfold read_lines. intros ->. reflexivity. Qed.

(** C5.  [read_lines] splits the contents of a file into lines and strips
    at most one trailing carriage return from each line, changing nothing
    else; reading a file that contains [a CR LF b LF] yields exactly the
    two lines [a] and [b]. *)
Theorem read_lines_strips_one_cr :
  (∀ (tree : gmap string node) (path text : string),
     read_contents tree path = Value text →
     read_lines tree path = Value (lines_of text)
     ∧ (unlines (split_lines text) = text
        ∨ unlines (split_lines text) = (text ++ String LF EmptyString)%string)
     ∧ Forall (λ raw, contains_char raw LF = false) (split_lines text)
     ∧ Forall2 stripped (split_lines text) (lines_of text))
  ∧ read_lines crlf_tree "status" = Value ["a"%string; "b"%string].
Proof.
  split; [| reflexivity].
  intros tree path text H.
  split; [apply read_lines_of_contents; exact H |].
  split; [apply unlines_split_lines |].
  split; [apply split_lines_no_LF | apply lines_of_stripped].
Qed.

Lemma read_lines_strips_one_cr_witness :
  read_contents crlf_tree "status" = Value crlf_text
  ∧ read_lines crlf_tree "status" = Value (lines_of crlf_text)
  ∧ Forall2 stripped (split_lines crlf_text) (lines_of crlf_text).
Proof.
  destruct read_lines_strips_one_cr as [Hlines _].
  split; [reflexivity |].
  destruct (Hlines crlf_tree "status"%string crlf_text) as (H1 & _ & _ & H2);
    [reflexivity |].
  split; [exact H1 | exact H2].
Defined.

(** ** Handles and locks *)

Lemma is_valid_iff (h : SystemHandle) :
  Handle.is_valid h = true ↔ system_handle h ≠ -1.
Proof.
  unfold Handle.is_valid. rewrite negb_true_iff, Z.eqb_neq. reflexivity.
Qed.

Lemma locked_iff (t : lock_table) (path : string) :
  locked t path = true ↔ ∃ native, holders t !! native = Some path.
Proof.
  unfold locked. rewrite bool_decide_eq_true, elem_of_map_img. reflexivity.
Qed.

Lemma try_take_bounded (path : string) (t t' : lock_table)
    (h : SystemHandle) (ec : error_code) :
  natives_bounded t →
  try_take_exclusive_file_lock path t = (h, ec, t') →
  natives_bounded t'.
Proof.
  unfold try_take_exclusive_file_lock. intros Hb.
  destruct (locked t path); intros [= <- <- <-]; [exact Hb |].
  intros native. simpl.
  destruct (decide (native = Z.of_nat (next_native t))) as [-> | Hne].
  - intros _. lia.
  - rewrite lookup_insert_ne by congruence. intros H.
    apply Hb in H. lia.
Qed.

Lemma unlock_bounded (h : SystemHandle) (t t' : lock_table) (ec : error_code) :
  natives_bounded t →
  unlock_file_lock h t = (ec, t') →
  natives_bounded t'.
Proof.
  unfold unlock_file_lock. intros Hb.
  destruct (Handle.is_valid h); [| intros [= <- <-]; exact Hb].
  destruct (holders t !! system_handle h) eqn:Hh; intros [= <- <-];
    [| exact Hb].
  intros native. simpl.
  destruct (decide (native = system_handle h)) as [-> | Hne].
  - rewrite lookup_delete_eq. intros [? [=]].
  - rewrite lookup_delete_ne by congruence. apply Hb.
Qed.

Lemma reachable_bounded (t : lock_table) : reachable t → natives_bounded t.
Proof.
  induction 1 as [| path t t' h ec _ IH Htake | h t t' ec _ IH Hunlock].
  - intros native. simpl. rewrite lookup_empty. intros [? [=]].
  - eapply try_take_bounded; eassumption.
  - eapply unlock_bounded; eassumption.
Qed.

Lemma try_take_success (path : string) (t t' : lock_table) (h : SystemHandle) :
  try_take_exclusive_file_lock path t = (h, Success, t') →
  Handle.is_valid h = true ∧ held t' h ∧ locked t path = false.
Proof.
  unfold try_take_exclusive_file_lock.
  destruct (locked t path); [discriminate |]. intros [= <- <-].
  split; [| split; [| reflexivity]].
  - apply is_valid_iff. simpl. lia.
  - unfold held. simpl. rewrite lookup_insert_eq. eexists. reflexivity.
Qed.

(** A file that is locked is not locked a second time: the bounded
    attempt returns an invalid handle and a recoverable error. *)
Lemma try_take_locked (path : string) (t : lock_table) :
  locked t path = true →
  try_take_exclusive_file_lock path t = (Handle.make, LockNotAcquired, t).
Proof. unfold try_take_exclusive_file_lock. intros ->. reflexivity. Qed.

(** Releasing an invalid handle changes nothing and reports no error. *)
Lemma unlock_invalid (h : SystemHandle) (t : lock_table) :
  Handle.is_valid h = false → unlock_file_lock h t = (Success, t).
Proof. unfold unlock_file_lock. intros ->. reflexivity. Qed.

Lemma unlock_releases (h : SystemHandle) (t t' : lock_table) (ec : error_code) :
  unlock_file_lock h t = (ec, t') → ¬ held t' h ∨ Handle.is_valid h = false.
Proof.
  unfold unlock_file_lock.
  destruct (Handle.is_valid h); [| right; reflexivity].
  destruct (holders t !! system_handle h) eqn:Hh; intros [= <- <-]; left.
  - unfold held. simpl. rewrite lookup_delete_eq. intros [? [=]].
  - unfold held. rewrite Hh. intros [? [=]].
Qed.

(** C7, counterexample.  The handle returned by a successful
    acquisition is still valid after [unlock_file_lock] has released its
    lock: the handle is passed by value and keeps its native value. *)
Lemma is_valid_after_release :
  reachable released.2
  ∧ ¬ (Handle.is_valid taken_handle = true ↔ held released.2 taken_handle).
Proof.
  split.
  - apply (reachable_unlock taken_handle taken.2 released.2 released.1);
      [| vm_compute; reflexivity].
    apply (reachable_take lock_path no_locks taken.2 taken_handle taken.1.2);
      [apply reachable_init | vm_compute; reflexivity].
  - intros [Hheld _]. destruct (Hheld eq_refl) as [path Hpath].
    vm_compute in Hpath. discriminate Hpath.
Qed.

(** C7, amended.  [is_valid()] is true if and only if the native value
    differs from the sentinel [-1]; a default-constructed handle is
    invalid; every handle whose resource is acquired and not yet released
    is valid, and so is the handle a successful acquisition returns. *)
Theorem is_valid_decided_by_sentinel :
  (∀ h : SystemHandle, Handle.is_valid h = true ↔ system_handle h ≠ -1)
  ∧ Handle.is_valid Handle.make = false
  ∧ (∀ (t : lock_table) (h : SystemHandle),
       reachable t → held t h → Handle.is_valid h = true)
  ∧ (∀ (path : string) (t t' : lock_table) (h : SystemHandle),
       try_take_exclusive_file_lock path t = (h, Success, t') →
       Handle.is_valid h = true ∧ held t' h).
Proof.
  split; [apply is_valid_iff |].
  split; [reflexivity |].
  split.
  - intros t h Hreach Hheld. apply is_valid_iff.
    apply reachable_bounded in Hreach. apply Hreach in Hheld. lia.
  - intros path t t' h H. apply try_take_success in H as (Hv & Hh & _).
    split; assumption.
Qed.

Lemma is_valid_decided_by_sentinel_witness :
  reachable taken.2
  ∧ held taken.2 taken_handle
  ∧ Handle.is_valid taken_handle = true.
Proof.
  assert (Hreach : reachable taken.2).
  { apply (reachable_take lock_path no_locks taken.2 taken_handle taken.1.2);
      [apply reachable_init | vm_compute; reflexivity]. }
  assert (Hheld : held taken.2 taken_handle).
  { vm_compute. eexists. reflexivity. }
  split; [exact Hreach |]. split; [exact Hheld |].
  destruct is_valid_decided_by_sentinel as (_ & _ & H & _).
  exact (H taken.2 taken_handle Hreach Hheld).
Defined.

(** ** Reserved characters *)

Lemma contains_char_In (chars : string) (c : ascii) :
  contains_char chars c = true ↔ In c (list_ascii_of_string chars).
Proof.
  induction chars as [|d chars IH]; simpl.
  - split; [discriminate | tauto].
  - rewrite orb_true_iff, IH, Ascii.eqb_eq. split; intros [H | H]; auto.
Qed.

(** [find_first_of] returns a position exactly when some character of the
    string is among the searched ones. *)
Lemma find_first_of_Some (s chars : string) :
  is_Some (find_first_of s chars)
  ↔ ∃ c, In c (list_ascii_of_string s) ∧ contains_char chars c = true.
Proof.
  induction s as [|c rest IH]; simpl.
  - split; [intros [? [=]] | intros (? & [] & _)].
  - destruct (contains_char chars c) eqn:Hc.
    + split; [intros _; exists c; auto | intros _; eexists; reflexivity].
    + split.
      * intros [i Hi]. destruct (find_first_of rest chars) as [j|] eqn:Hr;
          [| discriminate].
        destruct IH as [IH _]. destruct IH as (d & Hd & Hin); [eauto |].
        exists d. auto.
      * intros (d & [-> | Hd] & Hin); [congruence |].
        destruct IH as [_ IH]. destruct IH as [j Hj]; [eauto |].
        rewrite Hj. eexists. reflexivity.
Qed.

(** The position returned is the first one: it holds a searched character
    and no earlier position does. *)
Lemma find_first_of_first (s chars : string) (i : nat) :
  find_first_of s chars = Some i →
  (∃ c, list_ascii_of_string s !! i = Some c ∧ contains_char chars c = true)
  ∧ ∀ j c, (j < i)%nat → list_ascii_of_string s !! j = Some c →
           contains_char chars c = false.
Proof.
  revert i. induction s as [|c rest IH]; intros i; simpl; [discriminate |].
  destruct (contains_char chars c) eqn:Hc.
  - intros [= <-]. split; [exists c; auto | intros j d Hj; lia].
  - destruct (find_first_of rest chars) as [k|]; [| discriminate].
    intros [= <-]. destruct (IH k eq_refl) as [Hk Hbefore]. split.
    + exact Hk.
    + intros [|j] d Hj; simpl.
      * intros [= <-]. exact Hc.
      * apply Hbefore. lia.
Qed.

Lemma invalid_characters_reserved :
  list_ascii_of_string FILESYSTEM_INVALID_CHARACTERS = reserved_characters.
Proof. reflexivity. Qed.

(** C8.  The reserved characters are exactly the nine characters
    backslash, slash, colon, asterisk, question mark, double quote, less
    than, greater than and vertical bar, and
    [has_invalid_chars_for_filesystem s] is true if and only if [s]
    contains at least one of them. *)
Theorem invalid_characters_exact :
  list_ascii_of_string FILESYSTEM_INVALID_CHARACTERS = reserved_characters
  ∧ length reserved_characters = 9%nat
  ∧ List.NoDup reserved_characters
  ∧ ∀ s : string,
      has_invalid_chars_for_filesystem s = true
      ↔ ∃ c, In c (list_ascii_of_string s) ∧ In c reserved_characters.
Proof.
  split; [reflexivity |]. split; [reflexivity |]. split.
  - unfold reserved_characters. simpl.
    repeat (constructor;
            [simpl; intros H; repeat destruct H as [H | H];
             try discriminate H; exact H |]).
    constructor.
  - intros s. rewrite <- invalid_characters_reserved.
    unfold has_invalid_chars_for_filesystem.
    pose proof (find_first_of_Some s FILESYSTEM_INVALID_CHARACTERS) as Hf.
    setoid_rewrite contains_char_In in Hf. rewrite <- Hf.
    destruct (find_first_of s FILESYSTEM_INVALID_CHARACTERS).
    + split; [eexists; reflexivity | reflexivity].
    + split; [discriminate | intros [? [=]]].
Qed.

(** * Further properties of the header *)

(** ** The enumeration and the predicates together *)

(** X1.  The enumerators of [file_type] stand for pairwise different
    integers, the value 42 of [directory_symlink] included, so [==] and
    [!=] on a [file_type] tell exactly whether two enumerators are the
    same. *)
Theorem file_type_comparison_exact (a b : file_type) :
  (underlying a = underlying b ↔ a = b)
  ∧ (file_type_eq a b = true ↔ a = b)
  ∧ (file_type_ne a b = true ↔ a ≠ b).
Proof.
  split; [split; [apply underlying_inj | intros ->; reflexivity] |].
  split; [apply file_type_eq_spec | apply file_type_ne_spec].
Qed.

(** X2.  No status is classified twice: of [is_symlink], [is_regular_file]
    and [is_directory] at most one is true, in both configurations. *)
Theorem predicates_exclusive (_WIN32 : bool) (s : file_status) :
  is_symlink _WIN32 s && is_regular_file s = false
  ∧ is_symlink _WIN32 s && is_directory s = false
  ∧ is_regular_file s && is_directory s = false.
Proof.
  destruct s as [t p]. destruct t, _WIN32; repeat split.
Qed.

(** X3.  A status that is a symlink, a regular file or a directory
    exists. *)
Theorem classified_exists (_WIN32 : bool) (s : file_status)
    (Hclass : is_symlink _WIN32 s || is_regular_file s || is_directory s
              = true) :
  exists_ s = true.
Proof.
  destruct s as [t p].
  destruct t, _WIN32; first [reflexivity | discriminate Hclass].
Qed.

Lemma classified_exists_witness :
  is_symlink true (mk_file_status directory_symlink 0x1ff)
  || is_regular_file (mk_file_status directory_symlink 0x1ff)
  || is_directory (mk_file_status directory_symlink 0x1ff) = true
  ∧ exists_ (mk_file_status directory_symlink 0x1ff) = true.
Proof.
  split; [reflexivity |].
  apply (classified_exists true (mk_file_status directory_symlink 0x1ff)).
  reflexivity.
Defined.


(** X5.  The Windows branch of [is_symlink] only adds answers: on every
    status whose type exists without [_WIN32] the two configurations
    agree. *)
Theorem is_symlink_portable (s : file_status)
    (Hdeclared : declared false (FileStatus.type s) = true) :
  is_symlink true s = is_symlink false s.
Proof.
  destruct s as [t p]. destruct t; first [reflexivity | discriminate Hdeclared].
Qed.

Lemma is_symlink_portable_witness :
  declared false (FileStatus.type (mk_file_status symlink 0x1ff)) = true
  ∧ is_symlink true (mk_file_status symlink 0x1ff)
    = is_symlink false (mk_file_status symlink 0x1ff).
Proof.
  split; [reflexivity |].
  apply (is_symlink_portable (mk_file_status symlink 0x1ff)). reflexivity.
Defined.

(** X6.  The separator of either configuration is one of the reserved
    characters, and the two configurations use different ones. *)
Theorem preferred_separator_reserved (_WIN32 : bool) :
  In (preferred_separator _WIN32)
     (list_ascii_of_string FILESYSTEM_INVALID_CHARACTERS)
  ∧ preferred_separator true ≠ preferred_separator false.
Proof.
  split; [destruct _WIN32; simpl; tauto | discriminate].
Qed.

(** ** The overloads of [u8path] *)

Lemma strlen_bytes (bytes rest : list ascii) :
  Forall (λ c, c ≠ NUL) bytes →
  strlen (bytes ++ NUL :: rest) = Some (Z.of_nat (length bytes)).
Proof.
  induction 1 as [|c bytes Hc _ IH]; cbn [strlen app length].
  - rewrite Ascii.eqb_refl. reflexivity.
  - rewrite (proj2 (Ascii.eqb_neq c NUL) Hc), IH. cbn.
    f_equal. lia.
Qed.

Lemma string_view_middle (pre bytes post : list ascii) :
  string_view (pre ++ bytes ++ post) (Z.of_nat (length pre))
              (Z.of_nat (length pre) + Z.of_nat (length bytes))
  = Some bytes.
Proof.
  unfold string_view.
  assert (Hin : (0 <=? Z.of_nat (length pre))
                && (Z.of_nat (length pre)
                    <=? Z.of_nat (length pre) + Z.of_nat (length bytes))
                && (Z.of_nat (length pre) + Z.of_nat (length bytes)
                    <=? Z.of_nat (length (pre ++ bytes ++ post))) = true).
  { rewrite !andb_true_iff, !Z.leb_le, !length_app. lia. }
  rewrite Hin. f_equal.
  replace (Z.to_nat (Z.of_nat (length pre) + Z.of_nat (length bytes)
                     - Z.of_nat (length pre))) with (length bytes) by lia.
  rewrite Nat2Z.id, drop_app_length, take_app_length. reflexivity.
Qed.

Lemma string_view_buffer (str : list ascii) (first last : Z) :
  0 ≤ first ≤ last → last ≤ Z.of_nat (length str) →
  string_view (str ++ [NUL]) first last
  = Some (take (Z.to_nat (last - first)) (drop (Z.to_nat first) str)).
Proof.
  intros Hfl Hlast. unfold string_view.
  assert (Hin : (0 <=? first) && (first <=? last)
                && (last <=? Z.of_nat (length (str ++ [NUL]))) = true).
  { rewrite !andb_true_iff, !Z.leb_le, length_app. simpl. lia. }
  rewrite Hin. f_equal.
  rewrite drop_app_le by lia.
  apply take_app_le. rewrite length_drop. lia.
Qed.

Lemma deref_end (str : list ascii) : deref str (Z.of_nat (length str)) = None.
Proof.
  unfold deref. rewrite (proj2 (Z.ltb_ge _ _)) by lia.
  rewrite andb_false_r. reflexivity.
Qed.

Lemma deref_char (str : list ascii) (it : Z) :
  0 ≤ it < Z.of_nat (length str) → deref str it = Some it.
Proof.
  intros H. unfold deref.
  rewrite (proj2 (Z.leb_le _ _)), (proj2 (Z.ltb_lt _ _)) by lia. reflexivity.
Qed.

(** X7.  The iterator overload of [u8path] is defined on every range of a
    string, the empty range at [end()] included, where [end()] itself
    cannot be dereferenced: an empty range gives [path{}] without
    touching the string, and any other range converts exactly the
    [last - first] characters from [first] on. *)
Theorem u8path_iter_valid_range {path : Type} (u8path : list ascii → path)
    (empty_path : path) (str : list ascii) (first last : Z)
    (Hrange : 0 ≤ first ≤ last ∧ last ≤ Z.of_nat (length str)) :
  u8path_iter u8path empty_path str first last
  = Some (if first =? last then empty_path
          else u8path (take (Z.to_nat (last - first))
                            (drop (Z.to_nat first) str)))
  ∧ deref str (Z.of_nat (length str)) = None
  ∧ u8path_iter u8path empty_path str
      (Z.of_nat (length str)) (Z.of_nat (length str))
    = Some empty_path.
Proof.
  destruct Hrange as [Hfl Hlast].
  split; [| split; [apply deref_end |]].
  - unfold u8path_iter. destruct (first =? last) eqn:Heq; [reflexivity |].
    apply Z.eqb_neq in Heq.
    rewrite deref_char by lia. cbn.
    rewrite string_view_buffer by lia. cbn.
    do 3 f_equal. lia.
  - unfold u8path_iter. rewrite Z.eqb_refl. reflexivity.
Qed.

Lemma u8path_iter_valid_range_witness :
  (0 ≤ 1 ≤ 3 ∧ 3 ≤ Z.of_nat (length ["a"; "/"; "b"]%char))
  ∧ u8path_iter (λ bytes, bytes) [] ["a"; "/"; "b"]%char 1 3
    = Some ["/"; "b"]%char.
Proof.
  assert (Hrange : 0 ≤ 1 ≤ 3 ∧ 3 ≤ Z.of_nat (length ["a"; "/"; "b"]%char)).
  { simpl. lia. }
  split; [exact Hrange |].
  exact (proj1 (u8path_iter_valid_range (λ bytes, bytes) []
                  ["a"; "/"; "b"]%char 1 3 Hrange)).
Defined.

(** X8.  The C-string overload of [u8path] converts exactly the bytes
    before the first NUL: what follows the NUL in the buffer, and what
    precedes the pointer, is never part of the path. *)
Theorem u8path_cstr_stops_at_NUL {path : Type} (u8path : list ascii → path)
    (pre bytes rest : list ascii)
    (Hbytes : Forall (λ c, c ≠ NUL) bytes) :
  u8path_cstr u8path (pre ++ bytes ++ NUL :: rest) (Z.of_nat (length pre))
  = Some (u8path bytes).
Proof.
  unfold u8path_cstr.
  rewrite (proj2 (Z.leb_le _ _)) by lia.
  rewrite Nat2Z.id, drop_app_length, (strlen_bytes _ _ Hbytes). cbn.
  rewrite string_view_middle. reflexivity.
Qed.

Lemma u8path_cstr_stops_at_NUL_witness :
  Forall (λ c, c ≠ NUL) ["a"; "b"]%char
  ∧ u8path_cstr (λ bytes, bytes)
      (["x"]%char ++ ["a"; "b"]%char ++ NUL :: ["c"]%char)
      (Z.of_nat (length ["x"]%char))
    = Some ["a"; "b"]%char.
Proof.
  assert (Hbytes : Forall (λ c, c ≠ NUL) ["a"; "b"]%char).
  { repeat constructor; discriminate. }
  split; [exact Hbytes |].
  exact (u8path_cstr_stops_at_NUL (λ bytes, bytes)
           ["x"]%char ["a"; "b"]%char ["c"]%char Hbytes).
Defined.

(** X9.  On a [std::string] without an embedded NUL the iterator overload
    over the whole string and the C-string overload on its buffer make
    the same path, provided converting no bytes gives [path{}]. *)
Theorem u8path_overloads_agree {path : Type} (u8path : list ascii → path)
    (empty_path : path) (str : list ascii)
    (Hstr : Forall (λ c, c ≠ NUL) str)
    (Hempty : u8path [] = empty_path) :
  u8path_iter u8path empty_path str 0 (Z.of_nat (length str))
  = u8path_cstr u8path (str ++ [NUL]) 0.
Proof.
  assert (Hview : string_view (str ++ [NUL]) 0 (Z.of_nat (length str))
                  = Some str).
  { exact (string_view_middle [] str [NUL]). }
  assert (Hcstr : u8path_cstr u8path (str ++ [NUL]) 0 = Some (u8path str)).
  { unfold u8path_cstr. change (0 <=? 0) with true. cbv iota.
    change (Z.to_nat 0) with O. rewrite drop_0, (strlen_bytes str [] Hstr).
    cbn [mbind option_bind]. rewrite Z.add_0_l, Hview. reflexivity. }
  rewrite Hcstr. unfold u8path_iter.
  destruct (0 =? Z.of_nat (length str)) eqn:Heq.
  - apply Z.eqb_eq in Heq. destruct str; [| discriminate Heq].
    rewrite Hempty. reflexivity.
  - apply Z.eqb_neq in Heq. rewrite deref_char by lia.
    cbn [mbind option_bind]. rewrite Z.add_0_l, Z.sub_0_r, Hview.
    reflexivity.
Qed.

Lemma u8path_overloads_agree_witness :
  Forall (λ c, c ≠ NUL) ["a"; "b"]%char
  ∧ (λ bytes : list ascii, bytes) [] = []
  ∧ u8path_iter (λ bytes, bytes) [] ["a"; "b"]%char
      0 (Z.of_nat (length ["a"; "b"]%char))
    = u8path_cstr (λ bytes, bytes) (["a"; "b"]%char ++ [NUL]) 0.
Proof.
  assert (Hstr : Forall (λ c, c ≠ NUL) ["a"; "b"]%char).
  { repeat constructor; discriminate. }
  split; [exact Hstr |]. split; [reflexivity |].
  exact (u8path_overloads_agree (λ bytes, bytes) [] ["a"; "b"]%char
           Hstr eq_refl).
Defined.
